(** * PatrickStar: the chunk eviction policy

    A shallow embedding of [patrickstar/core/eviction_policy.py]:
    the access trace recorded by [trace_access], the next-use prediction
    [_chunk_next_used_moment] and the selection of chunks to evict,
    [LRUEvictionPolicy.derive_eviction_list]. *)

From stdpp Require Import base option list sorting gmap strings.
From Stdlib Require Import ZArith NArith Lia.

Local Open Scope Z_scope.

(** ** Exceptions

    The Python code can raise at a subscript: [access_mom_list[0]] and
    [chunks[chunk_id]] on lists, and a dictionary lookup. *)

Inductive exn : Type :=
| IndexError
| KeyError.

Inductive result (A : Type) : Type :=
| Ok (a : A)
| Raise (e : exn).
Arguments Ok {A} a.
Arguments Raise {A} e.

(** Sequencing stops at the first exception ([x ← r; k] below). *)
#[global] Instance result_bind : MBind result := λ A B k r,
  match r with
  | Ok a => k a
  | Raise e => Raise e
  end.

(** ** Data model *)

(** [torch.device]: a type name and an optional ordinal. *)
Record device : Type := Device {
  dev_type : string;
  dev_index : option nat
}.

#[global] Instance device_eq_dec : EqDecision device.
Proof. solve_decision. Defined.

#[global] Instance device_countable : Countable device.
Proof.
  refine (inj_countable' (λ d, (dev_type d, dev_index d))
                         (λ p, Device p.1 p.2) _).
  by intros [].
Defined.

(** Modelled from the spec: the enumeration [ChunkState] of
    [patrickstar.core.const].  The policy tells COMPUTE and RELEASED apart
    from every other state; FREE is named in a comment of the source. *)
Inductive ChunkState : Type :=
| FREE
| COMPUTE
| HOLD
| RELEASED.

#[global] Instance ChunkState_eq_dec : EqDecision ChunkState.
Proof. solve_decision. Defined.

(** Modelled from the spec: the view of a chunk the policy reads, one field
    per accessor ([get_device], [get_state], [is_pin],
    [get_payload_space]). *)
Record Chunk : Type := MkChunk {
  get_device : option device;
  get_state : ChunkState;
  is_pin : bool;
  get_payload_space : Z
}.

(** Modelled from the spec: [patrickstar.utils.Metronome], a logical clock
    whose moments are non-negative integers. *)
Record Metronome : Type := MkMetronome {
  moment : N;
  total_moment : N;
  is_warmup : bool
}.

(** [ChunkEvictionPolicyBase]: the trace dictionary, keyed by
    [(chunk_id, dev)], and the metronome. *)
Record Policy : Type := MkPolicy {
  chunk_access_dict : gmap (nat * device) (list N);
  metronome : Metronome
}.

(** [__init__] *)
Definition init (m : Metronome) : Policy :=
  {| chunk_access_dict := ∅; metronome := m |}.

(** The metronome is advanced and switched by its owner. *)
Definition set_metronome (m : Metronome) (self : Policy) : Policy :=
  {| chunk_access_dict := chunk_access_dict self; metronome := m |}.

(** ** [trace_access] *)

Definition trace_access (self : Policy) (chunk_id : nat) (dev : device)
  : result Policy :=
  let cur_mom := moment (metronome self) in
  let d0 := chunk_access_dict self in
  let d1 := match d0 !! (chunk_id, dev) with
            | None => <[(chunk_id, dev) := []]> d0
            | Some _ => d0
            end in
  match d1 !! (chunk_id, dev) with
  | None => Raise KeyError
  | Some l =>
      Ok {| chunk_access_dict := <[(chunk_id, dev) := l ++ [cur_mom]]> d1;
            metronome := metronome self |}
  end.

(** ** [_chunk_next_used_moment] *)

(** The [for mom in access_mom_list] loop: the first moment after
    [cur_mom], if the loop returns. *)
Fixpoint scan_moments (cur_mom : N) (access_mom_list : list N) : option N :=
  match access_mom_list with
  | [] => None
  | mom :: rest =>
      if (cur_mom <? mom)%N then Some mom else scan_moments cur_mom rest
  end.

Definition _chunk_next_used_moment (self : Policy) (chunk_id : nat)
  (dev : device) : result N :=
  if is_warmup (metronome self) then Ok 0%N
  else
    let cur_mom := moment (metronome self) in
    let total_mom := total_moment (metronome self) in
    match chunk_access_dict self !! (chunk_id, dev) with
    | None => Ok (2 * total_mom)%N
    | Some access_mom_list =>
        match scan_moments cur_mom access_mom_list with
        | Some mom => Ok mom
        | None =>
            match access_mom_list with
            | [] => Raise IndexError
            | first :: _ => Ok (total_mom + first)%N
            end
        end
    end.

(** ** [queue.PriorityQueue]

    The standard library's queue, by its contract: [get] removes the least
    entry.  Entries are the pairs [(-next_mom, chunk_id)], compared as Python
    compares tuples.  The queue is kept as the list of its entries in the
    order [get] yields them. *)

Definition entry : Type := Z * nat.

Definition entry_ltb (x y : entry) : bool :=
  (x.1 <? y.1) || ((x.1 =? y.1) && (x.2 <? y.2)%nat).

Definition PriorityQueue : Type := list entry.

Fixpoint put (x : entry) (q : PriorityQueue) : PriorityQueue :=
  match q with
  | [] => [x]
  | y :: q' => if entry_ltb x y then x :: q else y :: put x q'
  end.

(** ** [LRUEvictionPolicy.derive_eviction_list] *)

(** The condition under which a chunk enters the queue. *)
Definition movable (chunk : Chunk) (target_device : device) : bool :=
  match get_device chunk with
  | None => false
  | Some d =>
      bool_decide (dev_type d = dev_type target_device)
      && bool_decide (get_state chunk ≠ COMPUTE)
      && bool_decide (get_state chunk ≠ RELEASED)
      && negb (is_pin chunk)
  end.

(** [enumerate(chunks)], counting from [start]. *)
Fixpoint enumerate_from {A : Type} (start : nat) (l : list A)
  : list (nat * A) :=
  match l with
  | [] => []
  | x :: l' => (start, x) :: enumerate_from (S start) l'
  end.

Definition enumerate {A : Type} (l : list A) : list (nat * A) :=
  enumerate_from 0 l.

(** The first loop, over [enumerate(chunks)]: fills the queue [q] and
    [movable_chunk_info] (kept as the pairs that the f-string prints). *)
Fixpoint fill_queue (self : Policy) (target_device : device)
  (items : list (nat * Chunk)) (q : PriorityQueue)
  (movable_chunk_info : list (N * nat))
  : result (PriorityQueue * list (N * nat)) :=
  match items with
  | [] => Ok (q, movable_chunk_info)
  | (chunk_id, chunk) :: rest =>
      if movable chunk target_device then
        next_mom ← _chunk_next_used_moment self chunk_id target_device;
        fill_queue self target_device rest
          (put (- Z.of_N next_mom, chunk_id) q)
          (movable_chunk_info ++ [(next_mom, chunk_id)])
      else fill_queue self target_device rest q movable_chunk_info
  end.

(** The second loop, [while not q.empty()], with its [break]. *)
Fixpoint drain_queue (chunks : list Chunk) (need_bytes : Z)
  (q : PriorityQueue) (moved_list : list nat) (moved_bytes : Z)
  : result (list nat * Z) :=
  match q with
  | [] => Ok (moved_list, moved_bytes)
  | (next_mom, chunk_id) :: q' =>
      match chunks !! chunk_id with
      | None => Raise IndexError
      | Some chunk =>
          let moved_bytes := moved_bytes + get_payload_space chunk in
          let moved_list := moved_list ++ [chunk_id] in
          if need_bytes <=? moved_bytes then Ok (moved_list, moved_bytes)
          else drain_queue chunks need_bytes q' moved_list moved_bytes
      end
  end.

(** A call of [log_dist] at level WARNING: the values its message prints. *)
Record LogRecord : Type := MkLog {
  log_device : device;
  log_need_bytes : Z;
  log_moved_bytes : Z;
  log_movable_chunk_info : list (N * nat)
}.

(** The result is the returned [moved_list] and the log calls made. *)
Definition derive_eviction_list (self : Policy) (chunks : list Chunk)
  (need_bytes : Z) (target_device : device)
  : result (list nat * list LogRecord) :=
  qi ← fill_queue self target_device (enumerate chunks) [] [];
  mv ← drain_queue chunks need_bytes qi.1 [] 0;
  let moved_list := mv.1 in
  let moved_bytes := mv.2 in
  let log :=
    if moved_bytes <? need_bytes
    then [MkLog target_device need_bytes moved_bytes qi.2]
    else [] in
  Ok (moved_list, log).

(** ** Vocabulary of the specification *)

(** No recorded trace is empty. *)
Definition wf_trace (self : Policy) : Prop :=
  ∀ k l, chunk_access_dict self !! k = Some l → l ≠ [].

(** The chunks that pass the filter, with their identifiers. *)
Definition candidates (chunks : list Chunk) (dev : device)
  : list (nat * Chunk) :=
  filter (λ ic, movable ic.2 dev = true) (enumerate chunks).

(** The sum of the payload sizes of all candidates. *)
Definition evictable_bytes (chunks : list Chunk) (dev : device) : Z :=
  foldr (λ c acc, get_payload_space c + acc) 0
        (filter (λ c, movable c dev = true) chunks).

Definition payload_of (chunks : list Chunk) (chunk_id : nat) : Z :=
  from_option get_payload_space 0 (chunks !! chunk_id).

(** The bytes a plan frees. *)
Definition plan_bytes (chunks : list Chunk) (plan : list nat) : Z :=
  foldr (λ i acc, payload_of chunks i + acc) 0 plan.
#[global] Arguments plan_bytes : simpl never.

(** [i] is ranked for eviction ahead of [j]: a later predicted use, or the
    same one and a smaller identifier. *)
Definition ranked_before (self : Policy) (dev : device) (i j : nat) : Prop :=
  ∃ pi pj,
    _chunk_next_used_moment self i dev = Ok pi
    ∧ _chunk_next_used_moment self j dev = Ok pj
    ∧ ((pj < pi)%N ∨ (pi = pj ∧ (i < j)%nat)).


(** The order of the queue, up to equal entries. *)
Definition entry_le (x y : entry) : Prop :=
  x.1 < y.1 ∨ (x.1 = y.1 ∧ (x.2 ≤ y.2)%nat).

(** The prediction raises for no chunk. *)
Definition predicts (self : Policy) : Prop :=
  ∀ i dev, ∃ n, _chunk_next_used_moment self i dev = Ok n.

(** The entries the first loop puts into the queue. *)
Definition is_key (self : Policy) (dev : device) (items : list (nat * Chunk))
  (e : entry) : Prop :=
  ∃ c n, (e.2, c) ∈ items ∧ movable c dev = true
         ∧ _chunk_next_used_moment self e.2 dev = Ok n
         ∧ e.1 = - Z.of_N n.

(** The states a policy object goes through: created, its metronome moved
    by the owner, an access traced. *)
Inductive reachable : Policy → Prop :=
| reachable_init m : reachable (init m)
| reachable_metronome m self :
    reachable self → reachable (set_metronome m self)
| reachable_trace self chunk_id dev self' :
    reachable self → trace_access self chunk_id dev = Ok self' →
    reachable self'.

(** Every recorded trace is in ascending order and holds no moment after the
    current one: what a clock that never runs backwards leaves behind. *)
Definition trace_ordered (self : Policy) : Prop :=
  ∀ k l, chunk_access_dict self !! k = Some l →
    StronglySorted N.le l
    ∧ Forall (λ m, (m ≤ moment (metronome self))%N) l.


(** ** Sample states and registries *)

Definition cuda0 : device := Device "cuda" (Some 0%nat).
Definition cpu : device := Device "cpu" None.

Definition replay (cur total : N) : Metronome :=
  {| moment := cur; total_moment := total; is_warmup := false |}.

Definition warmup (cur : N) : Metronome :=
  {| moment := cur; total_moment := 0; is_warmup := true |}.

Definition with_trace (m : Metronome) (tr : list (nat * device * list N))
  : Policy :=
  {| chunk_access_dict := list_to_map tr; metronome := m |}.

Definition on_dev (d : device) (sz : Z) : Chunk :=
  MkChunk (Some d) HOLD false sz.

(** Chunks A, B and C of the end-to-end scenario, identifiers 0, 1, 2, whose
    next uses are predicted at the moments 3, 9 and 6. *)
Definition scenario_policy : Policy :=
  with_trace (replay 0 10)
    [((0%nat, cuda0), [3%N]); ((1%nat, cuda0), [9%N]); ((2%nat, cuda0), [6%N])].

Definition scenario_chunks : list Chunk :=
  [on_dev cuda0 500; on_dev cuda0 300; on_dev cuda0 200].

(** A registry with a chunk in use, a pinned one, a released one, one on
    another device and an unplaced one, next to two movable chunks. *)
Definition mixed_chunks : list Chunk :=
  [ MkChunk (Some cuda0) COMPUTE false 700;
    MkChunk (Some cuda0) HOLD true 700;
    on_dev cuda0 100;
    MkChunk (Some cuda0) RELEASED false 700;
    on_dev cpu 700;
    MkChunk None FREE false 700;
    on_dev cuda0 50 ].

(** After warm-up with period 10: chunk 0 was traced at moment 3, chunk 1
    never. *)
Definition unseen_policy : Policy :=
  with_trace (replay 3 10) [((0%nat, cuda0), [3%N])].

(** In warm-up at moment 4, chunk 2 already traced at moment 1. *)
Definition warmup_policy : Policy :=
  with_trace (warmup 4) [((2%nat, cuda0), [1%N])].

(** * Properties *)

(** ** The priority queue *)

Section Queue.

Lemma entry_ltb_true x y : entry_ltb x y = true → entry_le x y.
Proof.
  unfold entry_ltb, entry_le.
  rewrite orb_true_iff, andb_true_iff, Z.ltb_lt, Z.eqb_eq, Nat.ltb_lt. lia.
Qed.

Lemma entry_ltb_false x y : entry_ltb x y = false → entry_le y x.
Proof.
  unfold entry_ltb, entry_le.
  rewrite orb_false_iff, andb_false_iff, Z.ltb_ge, Z.eqb_neq, Nat.ltb_ge.
  lia.
Qed.

#[local] Instance entry_le_trans : Transitive entry_le.
Proof. unfold entry_le. intros x y z ??. lia. Qed.

Lemma put_perm x q : put x q ≡ₚ x :: q.
Proof.
  induction q as [|y q IH]; simpl; [done|].
  destruct (entry_ltb x y); [done|].
  by rewrite IH, Permutation_swap.
Qed.

Lemma put_sorted x q :
  StronglySorted entry_le q → StronglySorted entry_le (put x q).
Proof.
  induction q as [|y q IH]; simpl; intros Hs.
  - repeat constructor.
  - apply StronglySorted_cons in Hs as [Hy Hs].
    destruct (entry_ltb x y) eqn:E.
    + apply StronglySorted_cons. split; [|by apply StronglySorted_cons].
      apply entry_ltb_true in E. constructor; [done|].
      eapply Forall_impl; [exact Hy|]. intros z Hz. by etrans.
    + apply StronglySorted_cons. split; [|by apply IH].
      rewrite put_perm. constructor; [|done].
      by apply entry_ltb_false.
Qed.

End Queue.

(** ** [enumerate] *)

Section Enumerate.
Context {A : Type}.
Implicit Types l : list A.

Lemma elem_of_enumerate_from l s i x :
  (i, x) ∈ enumerate_from s l ↔ (s ≤ i)%nat ∧ l !! (i - s)%nat = Some x.
Proof.
  revert s. induction l as [|y l IH]; intros s; simpl.
  - rewrite elem_of_nil. naive_solver.
  - rewrite elem_of_cons, IH. split.
    + intros [[= -> ->]|[Hle Hl]].
      * by rewrite Nat.sub_diag.
      * split; [lia|]. by replace (i - s)%nat with (S (i - S s)) by lia.
    + intros [Hle Hl]. destruct (decide (i = s)) as [->|Hne].
      * rewrite Nat.sub_diag in Hl. left. naive_solver.
      * right. split; [lia|].
        by replace (i - s)%nat with (S (i - S s)) in Hl by lia.
Qed.

Lemma elem_of_enumerate l i x : (i, x) ∈ enumerate l ↔ l !! i = Some x.
Proof.
  unfold enumerate. rewrite elem_of_enumerate_from, Nat.sub_0_r.
  split; [naive_solver|]. split; [lia|done].
Qed.

Lemma enumerate_from_fst l s : (enumerate_from s l).*1 = seq s (length l).
Proof. revert s. induction l; intros s; simpl; f_equal; auto. Qed.

Lemma enumerate_from_snd l s : (enumerate_from s l).*2 = l.
Proof. revert s. induction l; intros s; simpl; f_equal; auto. Qed.

Lemma NoDup_enumerate_fst l : NoDup (enumerate l).*1.
Proof. unfold enumerate. rewrite enumerate_from_fst. apply NoDup_seq. Qed.

End Enumerate.

(** ** The trace *)

Lemma wf_trace_init m : wf_trace (init m).
Proof. intros k l. unfold init; simpl. by rewrite lookup_empty. Qed.

Lemma wf_trace_set_metronome m self :
  wf_trace self → wf_trace (set_metronome m self).
Proof. done. Qed.

(** [trace_access] never raises, and appends the current moment. *)
Lemma trace_access_ok self chunk_id dev :
  trace_access self chunk_id dev =
    Ok {| chunk_access_dict :=
            <[(chunk_id, dev) :=
                default [] (chunk_access_dict self !! (chunk_id, dev))
                ++ [moment (metronome self)]]> (chunk_access_dict self);
          metronome := metronome self |}.
Proof.
  unfold trace_access.
  destruct (chunk_access_dict self !! (chunk_id, dev)) as [l|] eqn:E; simpl.
  - by rewrite E.
  - by rewrite lookup_insert_eq, insert_insert_eq.
Qed.

Lemma wf_trace_trace_access self chunk_id dev self' :
  wf_trace self → trace_access self chunk_id dev = Ok self' → wf_trace self'.
Proof.
  rewrite trace_access_ok. intros Hwf [= <-] k l; simpl.
  rewrite lookup_insert. case_decide.
  - intros [= <-]. by destruct (default _ _).
  - apply Hwf.
Qed.

(** ** The prediction *)

Lemma scan_moments_Some cur l mom :
  scan_moments cur l = Some mom →
  ∃ l1 l2, l = l1 ++ mom :: l2 ∧ (cur < mom)%N ∧ Forall (λ m, (m ≤ cur)%N) l1.
Proof.
  induction l as [|m l IH]; simpl; [done|].
  destruct (cur <? m)%N eqn:E.
  - intros [= ->]. exists [], l. apply N.ltb_lt in E. by repeat split.
  - intros (l1 & l2 & -> & ? & ?)%IH. exists (m :: l1), l2.
    apply N.ltb_ge in E. repeat split; [done|]. by constructor.
Qed.

Lemma scan_moments_None cur l :
  scan_moments cur l = None ↔ Forall (λ m, (m ≤ cur)%N) l.
Proof.
  induction l as [|m l IH]; simpl.
  - split; [constructor|done].
  - rewrite Forall_cons. destruct (cur <? m)%N eqn:E.
    + apply N.ltb_lt in E. split; [done|]. intros [? _]. lia.
    + apply N.ltb_ge in E. rewrite IH. naive_solver.
Qed.


Lemma predicts_wf self : wf_trace self → predicts self.
Proof.
  intros Hwf i dev. unfold _chunk_next_used_moment.
  destruct (is_warmup _); [by eexists|].
  destruct (chunk_access_dict self !! (i, dev)) as [l|] eqn:E; [|by eexists].
  destruct (scan_moments _ l); [by eexists|].
  destruct l; [by apply Hwf in E|by eexists].
Qed.

(** ** The two loops of [derive_eviction_list] *)

Section Loops.
Variables (self : Policy) (dev : device).

Lemma fill_queue_ok items q info :
  predicts self →
  ∃ q' info',
    fill_queue self dev items q info = Ok (q', info')
    ∧ (StronglySorted entry_le q → StronglySorted entry_le q')
    ∧ (∀ e, e ∈ q' ↔ e ∈ q ∨ is_key self dev items e)
    ∧ q'.*2 ≡ₚ (filter (λ ic, movable ic.2 dev = true) items).*1 ++ q.*2.
Proof.
  intros Hp. revert q info.
  induction items as [|[i c] items IH]; intros q info; simpl.
  - exists q, info. split_and!; [done|done| |done].
    intros e. unfold is_key. setoid_rewrite elem_of_nil. naive_solver.
  - rewrite filter_cons; simpl. destruct (movable c dev) eqn:Hm.
    + destruct (Hp i dev) as [n Hn]. rewrite Hn; simpl.
      destruct (IH (put (- Z.of_N n, i) q) (info ++ [(n, i)]))
        as (q' & info' & -> & Hs & Hel & Hperm).
      exists q', info'. split_and!; [done| | |].
      * intros ?. by apply Hs, put_sorted.
      * intros e. rewrite Hel, put_perm, elem_of_cons.
        unfold is_key. setoid_rewrite elem_of_cons. split.
        -- intros [[->|?]|(c' & n' & ? & ? & ? & ?)]; [|by left|].
           ++ right. exists c, n. simpl. naive_solver.
           ++ right. exists c', n'. naive_solver.
        -- intros [?|(c' & n' & [[= ? ->]|?] & ? & Hn' & ?)].
           ++ left. by right.
           ++ left. left. destruct e as [k j]; simpl in *. subst.
              rewrite Hn in Hn'. by injection Hn' as ->.
           ++ right. exists c', n'. naive_solver.
      * rewrite Hperm, put_perm. simpl. by rewrite Permutation_middle.
    + destruct (IH q info) as (q' & info' & -> & Hs & Hel & Hperm).
      exists q', info'. split_and!; [done|done| |].
      * intros e. rewrite Hel. unfold is_key.
        setoid_rewrite elem_of_cons. split.
        -- intros [?|(c' & n' & ? & ?)]; [by left|].
           right. exists c', n'. naive_solver.
        -- intros [?|(c' & n' & [[= ? ->]|?] & ? & ?)];
             [by left|congruence|].
           right. exists c', n'. naive_solver.
      * done.
Qed.

End Loops.

Lemma plan_bytes_cons chunks i plan :
  plan_bytes chunks (i :: plan) = payload_of chunks i + plan_bytes chunks plan.
Proof. done. Qed.


Lemma plan_bytes_perm chunks p1 p2 :
  p1 ≡ₚ p2 → plan_bytes chunks p1 = plan_bytes chunks p2.
Proof.
  induction 1 as [|i p1 p2 _ IH|i j p|p1 p2 p3 _ IH1 _ IH2];
    rewrite ?plan_bytes_cons; lia.
Qed.

Lemma plan_bytes_nonneg chunks plan :
  Forall (λ c, 0 ≤ get_payload_space c) chunks → 0 ≤ plan_bytes chunks plan.
Proof.
  intros Hc. induction plan as [|i plan IH]; [done|].
  rewrite plan_bytes_cons. unfold payload_of.
  destruct (chunks !! i) as [c|] eqn:E; simpl; [|lia].
  eapply Forall_lookup_1 in Hc; [|done]. simpl in Hc. lia.
Qed.

(** The second loop returns a prefix [q1] of the queue: it stops at the
    first entry with which the bytes reach [need], or takes them all. *)
Lemma drain_queue_ok chunks need q ml mb :
  (∀ e, e ∈ q → is_Some (chunks !! e.2)) →
  ∃ q1 q2,
    q = q1 ++ q2
    ∧ drain_queue chunks need q ml mb
      = Ok (ml ++ q1.*2, mb + plan_bytes chunks q1.*2)
    ∧ (q2 = [] ∨ need ≤ mb + plan_bytes chunks q1.*2)
    ∧ (q1 = [] → q2 = [])
    ∧ (∀ p s, q1 = p ++ s → p ≠ [] → s ≠ [] →
              mb + plan_bytes chunks p.*2 < need).
Proof.
  revert ml mb. induction q as [|[k i] q IH]; intros ml mb Hin; simpl.
  - exists [], []. simpl. rewrite app_nil_r, Z.add_0_r.
    split_and!; auto. by intros [] ? [=].
  - destruct (Hin (k, i)) as [c Hc]; [by left|]. simpl in Hc. rewrite Hc.
    assert (Hpay : payload_of chunks i = get_payload_space c)
      by (unfold payload_of; by rewrite Hc).
    destruct (need <=? mb + get_payload_space c) eqn:E.
    + apply Z.leb_le in E. exists [(k, i)], q. simpl.
      rewrite plan_bytes_cons, Hpay. simpl. rewrite Z.add_0_r.
      split_and!; [done|done|by right|done|].
      intros [|? []] [|? ?] [=]; naive_solver.
    + apply Z.leb_gt in E.
      destruct (IH (ml ++ [i]) (mb + get_payload_space c))
        as (q1 & q2 & -> & -> & Hstop & Hnil & Hpre).
      { intros e He. apply Hin. by right. }
      exists ((k, i) :: q1), q2. simpl.
      rewrite plan_bytes_cons, Hpay, <- app_assoc, Z.add_assoc. simpl.
      split_and!; [done|done|done|done|].
      intros [|e p] s Heq Hp Hs; [done|]. injection Heq as <- ->.
      simpl. rewrite plan_bytes_cons, Hpay, Z.add_assoc.
      destruct p as [|e' p'].
      * change (plan_bytes chunks _) with 0. lia.
      * by apply (Hpre (e' :: p') s).
Qed.

(** ** The candidates *)

Lemma candidates_lookup chunks dev i c :
  (i, c) ∈ candidates chunks dev ↔ chunks !! i = Some c ∧ movable c dev = true.
Proof.
  unfold candidates. rewrite list_elem_of_filter, elem_of_enumerate. simpl.
  naive_solver.
Qed.

Lemma NoDup_candidates chunks dev : NoDup (candidates chunks dev).*1.
Proof.
  eapply sublist_NoDup; [apply (NoDup_enumerate_fst chunks)|].
  unfold candidates. apply fmap_sublist, sublist_filter.
Qed.

Lemma candidates_bytes_from chunks dev s l :
  (∀ i c, (i, c) ∈ enumerate_from s l → chunks !! i = Some c) →
  plan_bytes chunks
    (filter (λ ic, movable ic.2 dev = true) (enumerate_from s l)).*1
  = foldr (λ c acc, get_payload_space c + acc) 0
          (filter (λ c, movable c dev = true) l).
Proof.
  revert s. induction l as [|c l IH]; intros s Hin; [done|].
  simpl. rewrite !filter_cons. simpl.
  assert (Hl : ∀ i c', (i, c') ∈ enumerate_from (S s) l → chunks !! i = Some c')
    by (intros i c' ?; apply Hin; simpl; by right).
  destruct (decide (movable c dev = true)); [|by apply IH].
  simpl. rewrite plan_bytes_cons, IH by done. f_equal.
  unfold payload_of. rewrite (Hin s c); [done|]. simpl. by left.
Qed.

Lemma candidates_bytes chunks dev :
  plan_bytes chunks (candidates chunks dev).*1 = evictable_bytes chunks dev.
Proof.
  apply candidates_bytes_from. intros i c ?. by apply elem_of_enumerate.
Qed.

(** ** The ranking *)

Lemma ranked_before_sorted self dev (q : PriorityQueue) :
  StronglySorted entry_le q →
  NoDup q.*2 →
  (∀ e, e ∈ q →
     ∃ n, _chunk_next_used_moment self e.2 dev = Ok n ∧ e.1 = - Z.of_N n) →
  StronglySorted (ranked_before self dev) q.*2.
Proof.
  induction q as [|e q IH]; simpl; intros Hs Hnd Hkey; [constructor|].
  apply StronglySorted_cons in Hs as [He Hs].
  apply NoDup_cons in Hnd as [Hne Hnd].
  apply StronglySorted_cons. split.
  - apply Forall_fmap, Forall_forall. intros e' He'. simpl.
    destruct (Hkey e) as (n & Hn & Hn1); [by left|].
    destruct (Hkey e') as (n' & Hn' & Hn1'); [by right|].
    exists n, n'. split_and!; [done|done|].
    rewrite Forall_forall in He. specialize (He e' He').
    assert (e.2 ≠ e'.2).
    { intros Heq. apply Hne. rewrite Heq. by apply list_elem_of_fmap_2. }
    unfold entry_le in He. lia.
  - apply IH; [done|done|]. intros e' He'. apply Hkey. by right.
Qed.

(** ** What [derive_eviction_list] returns

    The plan is a prefix of the ranking of all candidates, cut at the first
    position where the bytes reach [need_bytes]; the log has one record
    exactly when they never do. *)
Lemma derive_eviction_list_spec self chunks need dev :
  predicts self →
  ∃ plan rest info,
    derive_eviction_list self chunks need dev
    = Ok (plan,
          if plan_bytes chunks plan <? need
          then [MkLog dev need (plan_bytes chunks plan) info] else [])
    ∧ StronglySorted (ranked_before self dev) (plan ++ rest)
    ∧ plan ++ rest ≡ₚ (candidates chunks dev).*1
    ∧ (rest = [] ∨ need ≤ plan_bytes chunks plan)
    ∧ (plan = [] → rest = [])
    ∧ (∀ p s, plan = p ++ s → p ≠ [] → s ≠ [] → plan_bytes chunks p < need).
Proof.
  intros Hp. unfold derive_eviction_list.
  destruct (fill_queue_ok self dev (enumerate chunks) [] [] Hp)
    as (q & info & -> & Hs & Hel & Hperm).
  simpl. rewrite app_nil_r in Hperm.
  destruct (drain_queue_ok chunks need q [] 0)
    as (q1 & q2 & -> & -> & Hstop & Hnil & Hpre).
  { intros e [[]%elem_of_nil|(c & n & Hin & _)]%Hel.
    apply elem_of_enumerate in Hin. by eexists. }
  simpl. rewrite Z.add_0_l in Hstop |- *.
  exists q1.*2, q2.*2, info. rewrite <- fmap_app. split_and!.
  - done.
  - apply ranked_before_sorted.
    + apply Hs. constructor.
    + rewrite Hperm. apply NoDup_candidates.
    + intros e [[]%elem_of_nil|(c & n & _ & _ & ? & ?)]%Hel. eauto.
  - done.
  - destruct Hstop as [->|?]; [by left|by right].
  - intros ?%fmap_nil_inv. by rewrite Hnil.
  - intros p s Heq Hp' Hs'.
    apply fmap_app_inv in Heq as (p' & s' & -> & -> & ->).
    specialize (Hpre p' s' eq_refl). rewrite Z.add_0_l in Hpre.
    apply Hpre; by intros ->.
Qed.

(** ** Auxiliary facts *)



Lemma wf_trace_with_trace m tr :
  Forall (λ kl, kl.2 ≠ []) tr → wf_trace (with_trace m tr).
Proof.
  intros Htr k l Hl. apply elem_of_list_to_map_2 in Hl.
  rewrite Forall_forall in Htr. by apply (Htr (k, l)).
Qed.

Lemma reachable_wf_trace self : reachable self → wf_trace self.
Proof.
  induction 1; eauto using wf_trace_init, wf_trace_set_metronome,
    wf_trace_trace_access.
Qed.

(** * The claims *)

(** C1. After warm-up, for a chunk with a non-empty recorded trace on the
    device: when some recorded moment is later than the current moment, the
    prediction is the first such moment in the recorded order; when none is,
    it is [total_moment] plus the first recorded moment. *)
Theorem chunk_next_used_moment_traced self chunk_id dev first rest :
  is_warmup (metronome self) = false →
  chunk_access_dict self !! (chunk_id, dev) = Some (first :: rest) →
  let cur_mom := moment (metronome self) in
  let access_mom_list := first :: rest in
  (∀ before mom after,
     access_mom_list = before ++ mom :: after →
     Forall (λ m, (m ≤ cur_mom)%N) before → (cur_mom < mom)%N →
     _chunk_next_used_moment self chunk_id dev = Ok mom)
  ∧ (Forall (λ m, (m ≤ cur_mom)%N) access_mom_list →
     _chunk_next_used_moment self chunk_id dev
     = Ok (total_moment (metronome self) + first)%N).
Proof.
  intros Hw Hl cur_mom l. unfold _chunk_next_used_moment.
  rewrite Hw, Hl. fold cur_mom. fold l. split.
  - intros before mom after Heq Hbefore Hmom.
    destruct (scan_moments cur_mom l) as [mom'|] eqn:E.
    + apply scan_moments_Some in E as (l1 & l2 & Heq' & Hmom' & Hl1).
      f_equal. rewrite Heq in Heq'. clear Heq.
      revert l1 Heq' Hl1. induction Hbefore as [|m before Hm _ IH];
        intros [|m1 l1] Heq' Hl1; simplify_eq/=.
      * done.
      * apply Forall_cons in Hl1 as [? _]. lia.
      * lia.
      * apply Forall_cons in Hl1 as [_ Hl1]. by apply (IH l1).
    + apply scan_moments_None in E. rewrite Heq in E.
      apply Forall_app in E as [_ [E _]%Forall_cons]. lia.
  - intros Hall. apply scan_moments_None in Hall. by rewrite Hall.
Qed.

(** The cases of the specification: period 10, trace [2, 7], at the current
    moments 8, 5 and 9. *)
Lemma chunk_next_used_moment_traced_witness :
  let self cur := with_trace (replay cur 10) [((0%nat, cuda0), [2; 7]%N)] in
  _chunk_next_used_moment (self 8%N) 0 cuda0 = Ok 12%N
  ∧ _chunk_next_used_moment (self 5%N) 0 cuda0 = Ok 7%N
  ∧ _chunk_next_used_moment (self 9%N) 0 cuda0 = Ok 12%N.
Proof.
  intros self. split_and!.
  - apply (proj2 (chunk_next_used_moment_traced (self 8%N) 0 cuda0 2%N [7%N]
                    eq_refl eq_refl)).
    repeat constructor; vm_compute; discriminate.
  - apply (proj1 (chunk_next_used_moment_traced (self 5%N) 0 cuda0 2%N [7%N]
                    eq_refl eq_refl) [2%N] 7%N []); [done| |done].
    repeat constructor; vm_compute; discriminate.
  - apply (proj2 (chunk_next_used_moment_traced (self 9%N) 0 cuda0 2%N [7%N]
                    eq_refl eq_refl)).
    repeat constructor; vm_compute; discriminate.
Defined.

(** The scenario's state arises from a run: three accesses traced in
    warm-up, then the metronome switched to replay with period 10. *)
Lemma scenario_reachable : reachable scenario_policy.
Proof.
  pose (s1 := with_trace (warmup 3) [((0%nat, cuda0), [3%N])]).
  pose (s2 := with_trace (warmup 6)
                [((0%nat, cuda0), [3%N]); ((2%nat, cuda0), [6%N])]).
  pose (s3 := with_trace (warmup 9)
                [((0%nat, cuda0), [3%N]); ((1%nat, cuda0), [9%N]);
                 ((2%nat, cuda0), [6%N])]).
  assert (H1 : trace_access (init (warmup 3)) 0 cuda0 = Ok s1)
    by (vm_compute; reflexivity).
  assert (H2 : trace_access (set_metronome (warmup 6) s1) 2 cuda0 = Ok s2)
    by (vm_compute; reflexivity).
  assert (H3 : trace_access (set_metronome (warmup 9) s2) 1 cuda0 = Ok s3)
    by (vm_compute; reflexivity).
  assert (H4 : set_metronome (replay 0 10) s3 = scenario_policy)
    by (vm_compute; reflexivity).
  rewrite <- H4.
  apply reachable_metronome, (reachable_trace _ _ _ _ (reachable_metronome
    _ _ (reachable_trace _ _ _ _ (reachable_metronome _ _ (reachable_trace
    _ _ _ _ (reachable_init _) H1)) H2)) H3).
Qed.

Lemma scenario_wf : wf_trace scenario_policy.
Proof. apply reachable_wf_trace, scenario_reachable. Qed.

Example scenario_predictions :
  (λ i, _chunk_next_used_moment scenario_policy i cuda0) <$> [0; 1; 2]%nat
  = [Ok 3; Ok 9; Ok 6]%N.
Proof. by vm_compute. Qed.



(** C3. When the candidates together hold at least the required bytes, the
    plan frees at least the required bytes. *)
Theorem derive_eviction_list_sufficient self chunks need_bytes target_device :
  wf_trace self →
  need_bytes ≤ evictable_bytes chunks target_device →
  ∃ plan log,
    derive_eviction_list self chunks need_bytes target_device = Ok (plan, log)
    ∧ need_bytes ≤ plan_bytes chunks plan.
Proof.
  intros Hwf Hneed.
  destruct (derive_eviction_list_spec self chunks need_bytes target_device)
    as (plan & rest & info & -> & _ & Hperm & [->|Hstop] & _);
    [by apply predicts_wf| |]; eexists _, _; (split; [done|]); [|done].
  rewrite app_nil_r in Hperm.
  by rewrite (plan_bytes_perm _ _ _ Hperm), candidates_bytes.
Qed.

Lemma derive_eviction_list_sufficient_witness :
  ∃ plan log,
    derive_eviction_list scenario_policy scenario_chunks 400 cuda0
    = Ok (plan, log)
    ∧ 400 ≤ plan_bytes scenario_chunks plan.
Proof.
  apply (derive_eviction_list_sufficient
           scenario_policy scenario_chunks 400 cuda0 scenario_wf).
  by vm_compute.
Defined.



Example mixed_chunks_plan :
  derive_eviction_list scenario_policy mixed_chunks 1000 cuda0
  = Ok ([6%nat; 2%nat],
        [MkLog cuda0 1000 150 [(6%N, 2%nat); (20%N, 6%nat)]]).
Proof. by vm_compute. Qed.



(** C10. With at least one candidate, payload sizes that are not negative
    and a required byte count of zero or less, the plan holds exactly one
    chunk identifier. *)
Theorem derive_eviction_list_nonpositive self chunks need_bytes target_device :
  wf_trace self →
  Forall (λ c, 0 ≤ get_payload_space c) chunks →
  need_bytes ≤ 0 →
  (∃ chunk_id chunk,
     chunks !! chunk_id = Some chunk ∧ movable chunk target_device = true) →
  ∃ chunk_id log,
    derive_eviction_list self chunks need_bytes target_device
    = Ok ([chunk_id], log).
Proof.
  intros Hwf Hpos Hneed (i & c & Hi & Hc).
  destruct (derive_eviction_list_spec self chunks need_bytes target_device)
    as (plan & rest & info & -> & _ & Hperm & _ & Hnil & Hpre);
    [by apply predicts_wf|].
  destruct plan as [|j [|j' plan]].
  - rewrite Hnil in Hperm by done. simpl in Hperm.
    assert (Hin : i ∈ (candidates chunks target_device).*1).
    { apply (list_elem_of_fmap_2 fst _ (i, c)). by apply candidates_lookup. }
    rewrite <- Hperm in Hin. by apply elem_of_nil in Hin.
  - by eexists _, _.
  - pose proof (plan_bytes_nonneg chunks [j] Hpos).
    assert (plan_bytes chunks [j] < need_bytes); [|lia].
    by apply (Hpre [j] (j' :: plan)).
Qed.

Lemma derive_eviction_list_nonpositive_witness :
  ∃ chunk_id log,
    derive_eviction_list scenario_policy scenario_chunks 0 cuda0
    = Ok ([chunk_id], log).
Proof.
  apply (derive_eviction_list_nonpositive
           scenario_policy scenario_chunks 0 cuda0 scenario_wf).
  - repeat constructor; by vm_compute.
  - done.
  - exists 0%nat, (on_dev cuda0 500). by vm_compute.
Defined.

Example nonpositive_plan :
  derive_eviction_list scenario_policy scenario_chunks 0 cuda0
  = Ok ([1%nat], []).
Proof. by vm_compute. Qed.


Lemma unseen_reachable : reachable unseen_policy.
Proof.
  assert (H1 : trace_access (init (warmup 3)) 0 cuda0
               = Ok (with_trace (warmup 3) [((0%nat, cuda0), [3%N])]))
    by (vm_compute; reflexivity).
  assert (H2 : set_metronome (replay 3 10)
                 (with_trace (warmup 3) [((0%nat, cuda0), [3%N])])
               = unseen_policy)
    by (vm_compute; reflexivity).
  rewrite <- H2.
  apply reachable_metronome, (reachable_trace _ _ _ _ (reachable_init _) H1).
Qed.

Lemma unseen_wf : wf_trace unseen_policy.
Proof. apply reachable_wf_trace, unseen_reachable. Qed.




Example warmup_plan :
  derive_eviction_list warmup_policy scenario_chunks 600 cuda0
  = Ok ([0%nat; 1%nat], []).
Proof. by vm_compute. Qed.

(** C8, as the specification states it, fails: with -1 byte
    required the call raises nothing and returns a plan. *)
Lemma derive_eviction_list_negative_not_rejected :
  derive_eviction_list scenario_policy scenario_chunks (-1) cuda0
  = Ok ([1%nat], [])
  ∧ ¬ ∃ e, derive_eviction_list scenario_policy scenario_chunks (-1) cuda0
           = Raise e.
Proof. split; [by vm_compute|]. intros [e He]. by vm_compute in He. Qed.

(** C8, amended. A negative required byte count is not rejected: with no
    empty trace recorded and no negative payload size, the call returns a
    plan of at most one chunk identifier and logs nothing. *)
Theorem derive_eviction_list_negative self chunks need_bytes target_device :
  need_bytes < 0 →
  wf_trace self →
  Forall (λ c, 0 ≤ get_payload_space c) chunks →
  ∃ plan,
    derive_eviction_list self chunks need_bytes target_device = Ok (plan, [])
    ∧ (length plan ≤ 1)%nat.
Proof.
  intros Hneed Hwf Hpos.
  destruct (derive_eviction_list_spec self chunks need_bytes target_device)
    as (plan & rest & info & -> & _ & _ & _ & _ & Hpre);
    [by apply predicts_wf|].
  pose proof (plan_bytes_nonneg chunks plan Hpos).
  exists plan. split.
  - by rewrite (proj2 (Z.ltb_ge _ _)) by lia.
  - destruct plan as [|j [|j' plan]]; simpl; [lia|lia|].
    pose proof (plan_bytes_nonneg chunks [j] Hpos).
    assert (plan_bytes chunks [j] < need_bytes); [|lia].
    by apply (Hpre [j] (j' :: plan)).
Qed.

Lemma derive_eviction_list_negative_witness :
  ∃ plan,
    derive_eviction_list scenario_policy scenario_chunks (-1) cuda0
    = Ok (plan, [])
    ∧ (length plan ≤ 1)%nat.
Proof.
  apply (derive_eviction_list_negative
           scenario_policy scenario_chunks (-1) cuda0);
    [done|apply scenario_wf|].
  repeat constructor; by vm_compute.
Defined.

(** C9. A call of [trace_access] after warm-up raises nothing, and it does
    change later predictions: traced at moment 3 of a period of 10, the so
    far untraced chunk 1 is predicted at 13 instead of 20, and falls behind
    chunk 0 in the plan. *)
Lemma trace_access_after_warmup :
  is_warmup (metronome unseen_policy) = false
  ∧ _chunk_next_used_moment unseen_policy 1 cuda0 = Ok 20%N
  ∧ derive_eviction_list unseen_policy [on_dev cuda0 10; on_dev cuda0 10]
      10 cuda0 = Ok ([1%nat], [])
  ∧ ∃ self',
      trace_access unseen_policy 1 cuda0 = Ok self'
      ∧ chunk_access_dict self' !! (1%nat, cuda0) = Some [3%N]
      ∧ _chunk_next_used_moment self' 1 cuda0 = Ok 13%N
      ∧ derive_eviction_list self' [on_dev cuda0 10; on_dev cuda0 10]
          10 cuda0 = Ok ([0%nat], []).
Proof.
  split_and!; [done|by vm_compute|by vm_compute|].
  rewrite trace_access_ok. eexists. split; [done|].
  split_and!; by vm_compute.
Qed.

(** * Further properties of the policy *)

(** ** [trace_access] *)

(** X1. [trace_access] raises nothing; it appends the current moment to the
    trace of its own key, starting from the empty trace when the key is new,
    and leaves every other trace and the metronome as they are. *)
Theorem trace_access_lookup self chunk_id dev :
  ∃ self',
    trace_access self chunk_id dev = Ok self'
    ∧ metronome self' = metronome self
    ∧ chunk_access_dict self' !! (chunk_id, dev)
      = Some (default [] (chunk_access_dict self !! (chunk_id, dev))
              ++ [moment (metronome self)])
    ∧ ∀ k, k ≠ (chunk_id, dev) →
           chunk_access_dict self' !! k = chunk_access_dict self !! k.
Proof.
  rewrite trace_access_ok. eexists. split; [done|]. simpl.
  split_and!; [done|by rewrite lookup_insert_eq|].
  intros k Hk. by rewrite lookup_insert_ne.
Qed.

(** X2. Under a clock that never runs backwards the traces stay in
    ascending order and bounded by the current moment: this holds at
    creation, and [trace_access] and a forward move of the metronome keep
    it. *)
Theorem trace_ordered_invariant :
  (∀ m, trace_ordered (init m))
  ∧ (∀ self chunk_id dev self',
       trace_ordered self → trace_access self chunk_id dev = Ok self' →
       trace_ordered self')
  ∧ (∀ self m,
       trace_ordered self → (moment (metronome self) ≤ moment m)%N →
       trace_ordered (set_metronome m self)).
Proof.
  split_and!.
  - intros m k l. unfold init; simpl. by rewrite lookup_empty.
  - intros self i dev self' Hord. rewrite trace_access_ok. intros [= <-] k l.
    simpl. rewrite lookup_insert. case_decide as Hk; [|apply Hord].
    intros [= <-].
    assert (StronglySorted N.le
              (default [] (chunk_access_dict self !! (i, dev)))
            ∧ Forall (λ m, (m ≤ moment (metronome self))%N)
                (default [] (chunk_access_dict self !! (i, dev))))
      as [Hs Hb].
    { destruct (chunk_access_dict self !! (i, dev)) as [l|] eqn:E; simpl.
      - by apply (Hord (i, dev)).
      - split; constructor. }
    split.
    + apply StronglySorted_app. split_and!; [|done|repeat constructor].
      intros x1 x2 Hx1 ->%list_elem_of_singleton.
      rewrite Forall_forall in Hb. by apply Hb.
    + apply Forall_app. split; [done|]. by repeat constructor.
  - intros self m Hord Hle k l Hl. destruct (Hord k l Hl) as [Hs Hb].
    split; [done|]. simpl. eapply Forall_impl; [exact Hb|].
    intros x Hx. simpl in Hx. lia.
Qed.

Lemma trace_ordered_invariant_witness :
  ∃ self',
    trace_access (init (warmup 3)) 0 cuda0 = Ok self'
    ∧ trace_ordered (set_metronome (replay 5 10) self').
Proof.
  eexists. split; [by vm_compute|].
  apply (proj2 (proj2 trace_ordered_invariant)); [|by vm_compute].
  apply (proj1 (proj2 trace_ordered_invariant) (init (warmup 3)) 0%nat cuda0);
    [|by vm_compute].
  apply (proj1 trace_ordered_invariant).
Defined.

(** ** [_chunk_next_used_moment] *)

(** X3. The prediction raises in one case only: after warm-up, on a key
    whose recorded trace is the empty list; the exception is the IndexError
    of [access_mom_list[0]]. *)
Theorem chunk_next_used_moment_raises self chunk_id dev e :
  _chunk_next_used_moment self chunk_id dev = Raise e
  ↔ e = IndexError
    ∧ is_warmup (metronome self) = false
    ∧ chunk_access_dict self !! (chunk_id, dev) = Some [].
Proof.
  unfold _chunk_next_used_moment.
  destruct (is_warmup (metronome self)); [split; [done|by intros (_ & ? & _)]|].
  destruct (chunk_access_dict self !! (chunk_id, dev)) as [l|];
    [|split; [done|by intros (_ & _ & ?)]].
  destruct l as [|first l]; simpl.
  - split; [by intros [= <-]|by intros (-> & _)].
  - destruct (moment (metronome self) <? first)%N; [|destruct (scan_moments _ l)];
      (split; [done|by intros (_ & _ & ?)]).
Qed.



(** X5. On a trace in ascending order the prediction is the nearest next
    use: the least recorded moment after the current one, and when there is
    none, [total_moment] plus the least recorded moment. *)
Theorem chunk_next_used_moment_nearest self chunk_id dev l :
  is_warmup (metronome self) = false →
  chunk_access_dict self !! (chunk_id, dev) = Some l →
  l ≠ [] →
  StronglySorted N.le l →
  let cur_mom := moment (metronome self) in
  ∃ p,
    _chunk_next_used_moment self chunk_id dev = Ok p
    ∧ ((∃ m, m ∈ l ∧ (cur_mom < m)%N) →
       p ∈ l ∧ (cur_mom < p)%N ∧ ∀ m, m ∈ l → (cur_mom < m)%N → (p ≤ m)%N)
    ∧ ((∀ m, m ∈ l → (m ≤ cur_mom)%N) →
       ∃ least, least ∈ l ∧ (∀ m, m ∈ l → (least ≤ m)%N)
                ∧ p = (total_moment (metronome self) + least)%N).
Proof.
  intros Hw Hl Hne Hs cur_mom. unfold _chunk_next_used_moment.
  rewrite Hw, Hl. fold cur_mom.
  destruct (scan_moments cur_mom l) as [mom|] eqn:E.
  - apply scan_moments_Some in E as (l1 & l2 & -> & Hmom & Hl1).
    exists mom. split; [done|]. split.
    + intros _. split_and!; [apply elem_of_app; right; by left|done|].
      intros m [Hm|Hm]%elem_of_app Hcur.
      * rewrite Forall_forall in Hl1. specialize (Hl1 m Hm). lia.
      * apply StronglySorted_app_1_r, StronglySorted_cons in Hs as [Hs _].
        apply elem_of_cons in Hm as [->|Hm]; [lia|].
        rewrite Forall_forall in Hs. by apply Hs.
    + intros Hall. assert ((mom ≤ cur_mom)%N); [|lia].
      apply Hall, elem_of_app. right. by left.
  - apply scan_moments_None in E. destruct l as [|first l]; [done|].
    eexists. split; [done|]. split.
    + intros (m & Hm & Hcur). rewrite Forall_forall in E.
      specialize (E m Hm). lia.
    + intros _. exists first. split_and!; [by left| |done].
      apply StronglySorted_cons in Hs as [Hs _].
      intros m [->|Hm]%elem_of_cons; [lia|].
      rewrite Forall_forall in Hs. by apply Hs.
Qed.

Lemma chunk_next_used_moment_nearest_witness :
  let self := with_trace (replay 5 10) [((0%nat, cuda0), [2; 7; 9]%N)] in
  ∃ p,
    _chunk_next_used_moment self 0 cuda0 = Ok p
    ∧ ((∃ m, m ∈ [2; 7; 9]%N ∧ (5 < m)%N) →
       p ∈ [2; 7; 9]%N ∧ (5 < p)%N
       ∧ ∀ m, m ∈ [2; 7; 9]%N → (5 < m)%N → (p ≤ m)%N)
    ∧ ((∀ m, m ∈ [2; 7; 9]%N → (m ≤ 5)%N) →
       ∃ least, least ∈ [2; 7; 9]%N ∧ (∀ m, m ∈ [2; 7; 9]%N → (least ≤ m)%N)
                ∧ p = (10 + least)%N).
Proof.
  intros self.
  apply (chunk_next_used_moment_nearest self 0 cuda0 [2; 7; 9]%N);
    [done|done|done|].
  repeat constructor; by vm_compute.
Defined.

(** X6. After warm-up, when the current moment and every recorded moment
    are before [total_moment] and no trace is empty, every prediction lies
    in the future, and no further than [2 * total_moment]. *)
Theorem chunk_next_used_moment_future self chunk_id dev :
  is_warmup (metronome self) = false →
  wf_trace self →
  let cur_mom := moment (metronome self) in
  let total_mom := total_moment (metronome self) in
  (cur_mom < total_mom)%N →
  (∀ k l m, chunk_access_dict self !! k = Some l → m ∈ l →
            (m < total_mom)%N) →
  ∃ p, _chunk_next_used_moment self chunk_id dev = Ok p
       ∧ (cur_mom < p ≤ 2 * total_mom)%N.
Proof.
  intros Hw Hwf cur_mom total_mom Hcur Hbound.
  unfold _chunk_next_used_moment. rewrite Hw. fold cur_mom total_mom.
  destruct (chunk_access_dict self !! (chunk_id, dev)) as [l|] eqn:El.
  - destruct (scan_moments cur_mom l) as [mom|] eqn:E.
    + exists mom. split; [done|].
      apply scan_moments_Some in E as (l1 & l2 & -> & Hmom & _).
      assert ((mom < total_mom)%N); [|lia].
      eapply Hbound; [done|]. apply elem_of_app. right. by left.
    + destruct l as [|first l]; [by apply Hwf in El|].
      eexists. split; [done|].
      assert ((first < total_mom)%N); [|lia].
      eapply Hbound; [done|]. by left.
  - eexists. split; [done|]. lia.
Qed.

Lemma chunk_next_used_moment_future_witness :
  ∃ p, _chunk_next_used_moment unseen_policy 0 cuda0 = Ok p
       ∧ (3 < p ≤ 2 * 10)%N.
Proof.
  apply (chunk_next_used_moment_future unseen_policy 0 cuda0
           eq_refl unseen_wf); [done|].
  intros k l m Hl Hm. apply elem_of_list_to_map_2 in Hl.
  apply list_elem_of_singleton in Hl. simplify_eq.
  apply list_elem_of_singleton in Hm. by subst m.
Defined.

(** X7. A first access traced at moment [t] is later predicted, after
    warm-up, at [t] itself while the clock is before [t], and at
    [total_moment + t] from then on. *)
Theorem trace_then_predict self chunk_id dev self' m :
  chunk_access_dict self !! (chunk_id, dev) = None →
  trace_access self chunk_id dev = Ok self' →
  is_warmup m = false →
  let t := moment (metronome self) in
  _chunk_next_used_moment (set_metronome m self') chunk_id dev
  = Ok (if (moment m <? t)%N then t else (total_moment m + t)%N).
Proof.
  intros Hnone. rewrite trace_access_ok, Hnone. intros [= <-] Hw t.
  unfold _chunk_next_used_moment. simpl.
  rewrite Hw, lookup_insert_eq. simpl. fold t.
  by destruct (moment m <? t)%N.
Qed.

Lemma trace_then_predict_witness :
  ∃ self',
    trace_access (init (warmup 3)) 0 cuda0 = Ok self'
    ∧ _chunk_next_used_moment (set_metronome (replay 1 10) self') 0 cuda0
      = Ok 3%N
    ∧ _chunk_next_used_moment (set_metronome (replay 3 10) self') 0 cuda0
      = Ok 13%N.
Proof.
  eexists. split; [by vm_compute|]. split.
  - apply (trace_then_predict (init (warmup 3)) 0 cuda0 _ (replay 1 10));
      by vm_compute.
  - apply (trace_then_predict (init (warmup 3)) 0 cuda0 _ (replay 3 10));
      by vm_compute.
Defined.

(** ** [derive_eviction_list] *)

Lemma fill_queue_ext self self' dev items q info :
  (∀ i c, (i, c) ∈ items → movable c dev = true →
          _chunk_next_used_moment self' i dev
          = _chunk_next_used_moment self i dev) →
  fill_queue self' dev items q info = fill_queue self dev items q info.
Proof.
  revert q info. induction items as [|[i c] items IH]; intros q info Heq;
    simpl; [done|].
  assert (Hrest : ∀ i' c', (i', c') ∈ items → movable c' dev = true →
            _chunk_next_used_moment self' i' dev
            = _chunk_next_used_moment self i' dev).
  { intros i' c' ?. apply Heq. by right. }
  destruct (movable c dev) eqn:Hm; [|by apply IH].
  rewrite (Heq i c) by (done || by left).
  destruct (_chunk_next_used_moment self i dev); simpl; [by apply IH|done].
Qed.

















(** X14. Tracing an access leaves the plan for a target device as it was,
    in three cases: during warm-up, when the access is traced for another
    device, and when the traced chunk is no candidate of the registry. *)
Theorem trace_access_keeps_plan self chunk_id dev self' chunks need_bytes
    target_device :
  trace_access self chunk_id dev = Ok self' →
  is_warmup (metronome self) = true
  ∨ dev ≠ target_device
  ∨ (∀ chunk, chunks !! chunk_id = Some chunk →
              movable chunk target_device = false) →
  derive_eviction_list self' chunks need_bytes target_device
  = derive_eviction_list self chunks need_bytes target_device.
Proof.
  rewrite trace_access_ok. intros [= <-] Hcase.
  unfold derive_eviction_list. rewrite (fill_queue_ext self); [done|].
  intros i c Hic Hm. apply elem_of_enumerate in Hic.
  unfold _chunk_next_used_moment. simpl.
  destruct (is_warmup (metronome self)) eqn:Hw; [done|].
  rewrite lookup_insert_ne; [done|]. intros [= -> ->].
  destruct Hcase as [?|[?|Hout]]; [done|done|].
  rewrite (Hout c Hic) in Hm. done.
Qed.

Lemma trace_access_keeps_plan_witness :
  ∃ self',
    trace_access unseen_policy 1 cpu = Ok self'
    ∧ derive_eviction_list self' [on_dev cuda0 10; on_dev cuda0 10] 10 cuda0
      = derive_eviction_list unseen_policy
          [on_dev cuda0 10; on_dev cuda0 10] 10 cuda0.
Proof.
  destruct (trace_access unseen_policy 1 cpu) as [self'|e] eqn:E;
    [|by vm_compute in E].
  exists self'. split; [done|].
  apply (trace_access_keeps_plan unseen_policy 1 cpu self' _ 10 cuda0 E).
  right. left. done.
Defined.
